(** * The translation coordination manager of @adonisjs/i18n

    A shallow embedding of [src/i18n_manager.ts] (class [I18nManager]) and
    the properties its specification states about it.

    Conventions of the embedding.
    - A plain JavaScript object whose key order is observed through
      [Object.keys] is a list of properties in enumeration order
      ([JsObject]); an object only ever read by key is a [gmap].  A lookup
      sees own properties only: names inherited from [Object.prototype]
      ([toString], [constructor], ...) are not considered as locales or as
      plugin names.
    - Values have the types the class declares: [enabled] is a boolean, a
      formatter is an object (truthy), messages and locales are strings.
    - A method that mutates the manager takes the manager and returns the
      value (or the exception) together with the manager afterwards.
    - Loaders and formatters are supplied by the application; they are
      represented by what a call to them produces.
    - A call runs to its end before the next one starts: what other calls
      could do between the [await] of [reloadTranslations] and its
      continuation is outside the embedding.
    - The field [journal] is instrumentation: it records, in order, every
      loader that was invoked and every formatter that was instantiated.  It
      has no counterpart in the class and no method reads it. *)

From stdpp Require Import base strings gmap list option.

(** ** Plain objects *)

(** Own enumerable string-keyed properties, in the order [Object.keys]
    lists them.  For names that are not array indices this is the order in
    which the properties were written, which is what "declaration order"
    means below. *)
Definition JsObject (V : Type) : Type := list (string * V).

Definition Object_keys {V} (o : JsObject V) : list string := o.*1.

(** [o[k]]: [None] is [undefined]. *)
Fixpoint js_get {V} (o : JsObject V) (k : string) : option V :=
  match o with
  | [] => None
  | (k', v) :: o' => if decide (k' = k) then Some v else js_get o' k
  end.

(** [s || d] on strings: the empty string is falsy. *)
Definition string_or (s d : string) : string :=
  if decide (s = "") then d else s.

(** [Record<string, string>]: the messages of one locale. *)
Abbreviation Messages := (gmap string string).

(** What a loader produces: [{ [lang]: Record<string, string> }]. *)
Definition Translations : Type := JsObject Messages.

(** [Object.assign(target, source)]; an [undefined] source is ignored. *)
Definition Object_assign (target : Messages) (source : option Messages) : Messages :=
  match source with
  | Some s => s ∪ target
  | None => target
  end.

(** ** Exceptions and promises *)

Inductive Exception : Type :=
  | InvalidLoader (name : string)      (* RuntimeException: Invalid i18n loader *)
  | InvalidFormatter (name : string)   (* RuntimeException: Invalid i18n formatter *)
  | LoaderFailure (reason : string).   (* whatever a loader throws or rejects with *)


Inductive Result (A : Type) : Type :=
  | Ok (a : A)
  | Err (e : Exception).
Arguments Ok {A} a.
Arguments Err {A} e.

(** A promise by the way it settles.  [Rejected instant reason]: the promise
    rejects at that instant; [Promise.all] forwards the rejection that comes
    first. *)
Inductive Promise (A : Type) : Type :=
  | Fulfilled (a : A)
  | Rejected (instant : nat) (reason : string).
Arguments Fulfilled {A} a.
Arguments Rejected {A} instant reason.

Fixpoint Promise_all {A} (ps : list (Promise A)) : Promise (list A) :=
  match ps with
  | [] => Fulfilled []
  | p :: ps' =>
      match p, Promise_all ps' with
      | Fulfilled a, Fulfilled l => Fulfilled (a :: l)
      | Fulfilled _, Rejected t e => Rejected t e
      | Rejected t e, Fulfilled _ => Rejected t e
      | Rejected t e, Rejected t' e' =>
          if decide (t ≤ t') then Rejected t e else Rejected t' e'
      end
  end.

(** Modelled from the spec: the loader contract [TranslationsLoaderContract]
    of [types/main.ts], which is not among the sources (section 6: a source
    produces its mapping synchronously or by a suspending operation, or
    fails with an error of its own).  [loaderFactory(config).load()] either
    throws before it returns, or returns a promise (a value that is not a
    promise counts as a fulfilled one for [Promise.all]). *)
Inductive LoadOutcome : Type :=
  | Throws (reason : string)
  | Returns (p : Promise Translations).

(** ** Configuration *)

Module I18nConfig.

Record LoaderConfig : Type := {
  enabled : bool;
  options : JsObject string;
}.

(** Modelled from the spec: the type [I18nConfig] of [types/main.ts], which
    is not among the sources (section 3, Configuration).  The fields are the
    ones the class reads; a loader entry may be [undefined], which
    [loaders[loader]?.enabled] allows for. *)
Record t : Type := {
  defaultLocale : string;
  supportedLocales : option (list string);
  fallbackLocales : option (JsObject string);
  loaders : JsObject (option LoaderConfig);
  translationsFormat : string;
  fallback : option (string → string → option string);
}.

End I18nConfig.

(** [config.loaders[loader]?.enabled], as a condition. *)
Definition loader_enabled (config : I18nConfig.t) (loader : string) : bool :=
  match js_get (I18nConfig.loaders config) loader with
  | Some (Some lc) => I18nConfig.enabled lc
  | _ => false
  end.

(** [config.fallbackLocales ? Object.keys(config.fallbackLocales) : []] *)
Definition fallback_keys (config : I18nConfig.t) : list string :=
  match I18nConfig.fallbackLocales config with
  | Some fl => Object_keys fl
  | None => []
  end.

(** ** The manager *)

Inductive Event : Type :=
  | LoaderInvoked (name : string)
  | FormatterCreated (name : string).

(** A loader reads the outside world (the file system, a database); [World]
    is its state at the time of the call. *)
Abbreviation ManagerLoaderFactory World := (I18nConfig.t → World → LoadOutcome).
Abbreviation ManagerFormatterFactory Formatter := (I18nConfig.t → Formatter).

Section Manager.

Context {World Formatter : Type}.

Record I18nManager : Type := {
  config : I18nConfig.t;
  formatters : gmap string (ManagerFormatterFactory Formatter);
  formatter : option Formatter;
  loaders : gmap string (ManagerLoaderFactory World);
  inferredLocales : list string;
  translations : gmap string Messages;
  hasCachedTranslations : bool;
  journal : list Event;
}.

(** The two built-in plugins live in files of their own; the constructor
    takes what they produce. *)
Variable FsLoader_load : option I18nConfig.LoaderConfig → World → LoadOutcome.
Variable IcuFormatter : Formatter.

(** The constructor and the field initialisers (lines 41-101). *)
Definition new (config : I18nConfig.t) : I18nManager := {|
  config := config;
  formatters := {[ "icu" := λ _, IcuFormatter ]};
  formatter := None;
  loaders :=
    {[ "fs" := λ config, FsLoader_load (mjoin (js_get (I18nConfig.loaders config) "fs")) ]};
  inferredLocales := [];
  translations := ∅;
  hasCachedTranslations := false;
  journal := [];
|}.

(** [get defaultLocale()] (lines 83-85). *)
Definition defaultLocale (m : I18nManager) : string :=
  I18nConfig.defaultLocale (config m).

(** [supportedLocales()] (lines 110-112): an array, even an empty one, is
    truthy, so [||] takes the inferred list only when none is configured. *)
Definition supportedLocales (m : I18nManager) : list string :=
  match I18nConfig.supportedLocales (config m) with
  | Some explicit => explicit
  | None => inferredLocales m
  end.

(** [getTranslations()] (lines 119-121). *)
Definition getTranslations (m : I18nManager) : gmap string Messages :=
  translations m.

(** [getTranslationsFor(locale)] (lines 126-128). *)
Definition getTranslationsFor (m : I18nManager) (locale : string) : Messages :=
  default ∅ (translations m !! locale).

(** Appending to the journal. *)
Definition record (evs : list Event) (m : I18nManager) : I18nManager := {|
  config := config m;
  formatters := formatters m;
  formatter := formatter m;
  loaders := loaders m;
  inferredLocales := inferredLocales m;
  translations := translations m;
  hasCachedTranslations := hasCachedTranslations m;
  journal := journal m ++ evs;
|}.

(** [getFormatter()] (lines 134-149). *)
Definition getFormatter (m : I18nManager) : Result Formatter * I18nManager :=
  match formatter m with
  | Some f => (Ok f, m)
  | None =>
      let name := I18nConfig.translationsFormat (config m) in
      match formatters m !! name with
      | None => (Err (InvalidFormatter name), m)
      | Some formatterFactory =>
          let f := formatterFactory (config m) in
          (Ok f,
           {| config := config m;
              formatters := formatters m;
              formatter := Some f;
              loaders := loaders m;
              inferredLocales := inferredLocales m;
              translations := translations m;
              hasCachedTranslations := hasCachedTranslations m;
              journal := journal m ++ [FormatterCreated name] |})
      end
  end.

(** The callback of [.map] over the enabled loader names (lines 174-181),
    left to right.  A throw leaves [.map] at once: the loaders after it are
    not invoked. *)
Fixpoint invoke_loaders (m : I18nManager) (w : World) (names : list string)
  : Result (list (Promise Translations)) * list Event :=
  match names with
  | [] => (Ok [], [])
  | loader :: rest =>
      match loaders m !! loader with
      | None => (Err (InvalidLoader loader), [])
      | Some loaderFactory =>
          match loaderFactory (config m) w with
          | Throws reason => (Err (LoaderFailure reason), [LoaderInvoked loader])
          | Returns p =>
              let '(r, evs) := invoke_loaders m w rest in
              (match r with
               | Ok ps => Ok (p :: ps)
               | Err e => Err e
               end,
               LoaderInvoked loader :: evs)
          end
      end
  end.

(** [Object.keys(config.loaders).filter(...)] (lines 170-173). *)
Definition enabled_loaders (config : I18nConfig.t) : list string :=
  List.filter (loader_enabled config) (Object_keys (I18nConfig.loaders config)).

(** The body of the inner [forEach] (lines 211-224), for one language of one
    loader's result: the locale is appended to the inferred list unless the list
    includes it, ... *)
Definition infer_locale (inferred : list string) (lang : string) : list string :=
  if bool_decide (lang ∈ inferred) then inferred else inferred ++ [lang].

(** ... and the loader's messages are assigned onto the store's object for
    the language, a new [{}] when the store has none.  The store and the
    objects in it were created by this reload, so no object a caller or a
    loader holds is written to. *)
Definition assign_lang (translations : Translations)
    (store : gmap string Messages) (lang : string) : gmap string Messages :=
  <[ lang := Object_assign (default ∅ (store !! lang)) (js_get translations lang) ]> store.

Definition merge_lang (translations : Translations)
    (st : list string * gmap string Messages) (lang : string)
  : list string * gmap string Messages :=
  (infer_locale st.1 lang, assign_lang translations st.2 lang).

(** The body of the outer [forEach]: one loader's result. *)
Definition merge_translations (st : list string * gmap string Messages)
    (translations : Translations) : list string * gmap string Messages :=
  fold_left (merge_lang translations) (Object_keys translations) st.

(** [[this.defaultLocale].concat(fallbackLocales ? Object.keys(fallbackLocales) : [])] *)
Definition initial_inferredLocales (m : I18nManager) : list string :=
  defaultLocale m :: fallback_keys (config m).

(** [reloadTranslations()] (lines 166-226).  Nothing is written before the
    [await]; after it the flag, the store and the inferred list are set. *)
Definition reloadTranslations (w : World) (m : I18nManager)
  : Result unit * I18nManager :=
  let '(r, evs) := invoke_loaders m w (enabled_loaders (config m)) in
  let m := record evs m in
  match r with
  | Err e => (Err e, m)
  | Ok promises =>
      match Promise_all promises with
      | Rejected _ reason => (Err (LoaderFailure reason), m)
      | Fulfilled translationsStack =>
          let '(inferred, store) :=
            fold_left merge_translations translationsStack
              (initial_inferredLocales m, ∅) in
          (Ok (),
           {| config := config m;
              formatters := formatters m;
              formatter := formatter m;
              loaders := loaders m;
              inferredLocales := inferred;
              translations := store;
              hasCachedTranslations := true;
              journal := journal m |})
      end
  end.

(** [loadTranslations()] (lines 157-161). *)
Definition loadTranslations (w : World) (m : I18nManager)
  : Result unit * I18nManager :=
  if hasCachedTranslations m then (Ok (), m) else reloadTranslations w m.

(** [getSupportedLocaleFor(userLanguage)] (lines 232-246).
    [new Negotiator({ headers }).language(available)] is the npm package
    [negotiator]; it is an argument here. *)
Definition getSupportedLocaleFor
    (Negotiator_language : string → list string → option string)
    (m : I18nManager) (userLanguage : string + list string) : option string :=
  let header :=
    match userLanguage with
    | inl s => s
    | inr l => String.concat "," l
    end in
  match Negotiator_language header (supportedLocales m) with
  | Some l => if decide (l = "") then None else Some l
  | None => None
  end.

(** [getFallbackLocaleFor(locale)] (lines 252-266). *)
Definition getFallbackLocaleFor (m : I18nManager) (locale : string) : string :=
  match I18nConfig.fallbackLocales (config m) with
  | None => defaultLocale m
  | Some fl =>
      match js_get fl locale with
      | Some l => string_or l (defaultLocale m)
      | None => defaultLocale m
      end
  end.

(** [getFallbackMessage(identifier, locale)] (lines 281-283). *)
Definition getFallbackMessage (m : I18nManager) (identifier locale : string)
  : option string :=
  match I18nConfig.fallback (config m) with
  | Some f => f identifier locale
  | None => None
  end.

(** [extend(name, type, callback)] (lines 288-302): the type tag and its
    callback. *)
Inductive Extension : Type :=
  | ext_loader (callback : ManagerLoaderFactory World)
  | ext_formatter (callback : ManagerFormatterFactory Formatter).

Definition extend (name : string) (type : Extension) (m : I18nManager)
  : I18nManager :=
  match type with
  | ext_loader callback =>
      {| config := config m;
         formatters := formatters m;
         formatter := formatter m;
         loaders := <[ name := callback ]> (loaders m);
         inferredLocales := inferredLocales m;
         translations := translations m;
         hasCachedTranslations := hasCachedTranslations m;
         journal := journal m |}
  | ext_formatter callback =>
      {| config := config m;
         formatters := <[ name := callback ]> (formatters m);
         formatter := formatter m;
         loaders := loaders m;
         inferredLocales := inferredLocales m;
         translations := translations m;
         hasCachedTranslations := hasCachedTranslations m;
         journal := journal m |}
  end.

End Manager.

Arguments I18nManager : clear implicits.
Arguments Extension : clear implicits.

(** ** Sequences of calls *)

(** The calls that can change a manager.  The other methods only read. *)
Inductive Call (World Formatter : Type) : Type :=
  | call_extend (name : string) (type : Extension World Formatter)
  | call_getFormatter
  | call_loadTranslations (w : World)
  | call_reloadTranslations (w : World).
Arguments call_extend {World Formatter} name type.
Arguments call_getFormatter {World Formatter}.
Arguments call_loadTranslations {World Formatter} w.
Arguments call_reloadTranslations {World Formatter} w.

Definition succeeded {A} (r : Result A) : bool :=
  match r with
  | Ok _ => true
  | Err _ => false
  end.

(** One call: whether it returned normally, and the manager afterwards. *)
Definition perform {World Formatter} (c : Call World Formatter)
    (m : I18nManager World Formatter) : bool * I18nManager World Formatter :=
  match c with
  | call_extend name type => (true, extend name type m)
  | call_getFormatter => (succeeded (getFormatter m).1, (getFormatter m).2)
  | call_loadTranslations w =>
      (succeeded (loadTranslations w m).1, (loadTranslations w m).2)
  | call_reloadTranslations w =>
      (succeeded (reloadTranslations w m).1, (reloadTranslations w m).2)
  end.

Definition run {World Formatter} (cs : list (Call World Formatter))
    (m : I18nManager World Formatter) : I18nManager World Formatter :=
  fold_left (λ m c, (perform c m).2) cs m.

Definition is_load {World Formatter} (c : Call World Formatter) : bool :=
  match c with
  | call_loadTranslations _ | call_reloadTranslations _ => true
  | _ => false
  end.

(** Whether some [loadTranslations] or [reloadTranslations] of the sequence
    returned normally. *)
Fixpoint loaded {World Formatter} (cs : list (Call World Formatter))
    (m : I18nManager World Formatter) : bool :=
  match cs with
  | [] => false
  | c :: cs' => (is_load c && (perform c m).1) || loaded cs' (perform c m).2
  end.




(** The manager with another value of the cached flag. *)
Definition with_hasCachedTranslations {World Formatter} (b : bool)
    (m : I18nManager World Formatter) : I18nManager World Formatter := {|
  config := config m;
  formatters := formatters m;
  formatter := formatter m;
  loaders := loaders m;
  inferredLocales := inferredLocales m;
  translations := translations m;
  hasCachedTranslations := b;
  journal := journal m;
|}.

(** ** What the specification says a reload computes *)

(** [name] is registered and the call of its load returns promise [p]. *)
Definition source_returns {World Formatter} (m : I18nManager World Formatter)
    (w : World) (name : string) (p : Promise Translations) : Prop :=
  ∃ loaderFactory, loaders m !! name = Some loaderFactory
                   ∧ loaderFactory (config m) w = Returns p.

(** [name] is registered and its load, in world [w], fulfils with [t]. *)
Definition source_result {World Formatter} (m : I18nManager World Formatter)
    (w : World) (name : string) (t : Translations) : Prop :=
  ∃ loaderFactory, loaders m !! name = Some loaderFactory
                   ∧ loaderFactory (config m) w = Returns (Fulfilled t).

(** [name] is registered and its load, in world [w], throws or rejects. *)
Definition source_fails {World Formatter} (m : I18nManager World Formatter)
    (w : World) (name : string) (reason : string) : Prop :=
  ∃ loaderFactory, loaders m !! name = Some loaderFactory
    ∧ (loaderFactory (config m) w = Throws reason
       ∨ ∃ instant, loaderFactory (config m) w = Returns (Rejected instant reason)).

(** The message one source result has for a key of a locale. *)
Definition source_value (t : Translations) (locale key : string) : option string :=
  js_get t locale ≫= (.!! key).

(** The message of the last source result, in declaration order, that has
    one for the key of the locale. *)
Fixpoint last_source_value (stack : list Translations) (locale key : string)
  : option string :=
  match stack with
  | [] => None
  | t :: rest =>
      match last_source_value rest locale key with
      | Some v => Some v
      | None => source_value t locale key
      end
  end.

(** The locales of the source results, in encounter order. *)
Definition discovered_locales (stack : list Translations) : list string :=
  stack ≫= Object_keys.

(** The elements of [l] not in [seen], each at its first occurrence only. *)
Fixpoint first_occurrences (seen l : list string) : list string :=
  match l with
  | [] => []
  | x :: l' =>
      if bool_decide (x ∈ seen) then first_occurrences seen l'
      else x :: first_occurrences (x :: seen) l'
  end.

(** The manager a reload leaves when every enabled source fulfilled and the
    results are [stack]. *)
Definition reloaded {World Formatter} (m : I18nManager World Formatter)
    (stack : list Translations) : I18nManager World Formatter := {|
  config := config m;
  formatters := formatters m;
  formatter := formatter m;
  loaders := loaders m;
  inferredLocales :=
    fold_left infer_locale (discovered_locales stack) (initial_inferredLocales m);
  translations :=
    fold_left (λ store t, fold_left (assign_lang t) (Object_keys t) store) stack ∅;
  hasCachedTranslations := true;
  journal := journal m ++ (LoaderInvoked <$> enabled_loaders (config m));
|}.

(** ** Sample managers *)

Definition sample_config : I18nConfig.t := {|
  I18nConfig.defaultLocale := "en";
  I18nConfig.supportedLocales := None;
  I18nConfig.fallbackLocales := Some [("fr-CA", "fr")];
  I18nConfig.loaders :=
    [("a", Some {| I18nConfig.enabled := true; I18nConfig.options := [] |});
     ("off", Some {| I18nConfig.enabled := false; I18nConfig.options := [] |});
     ("b", Some {| I18nConfig.enabled := true; I18nConfig.options := [] |})];
  I18nConfig.translationsFormat := "icu";
  I18nConfig.fallback := None;
|}.

Definition sample_fs (_ : option I18nConfig.LoaderConfig) (_ : unit) : LoadOutcome :=
  Returns (Fulfilled []).

Definition source_a : Translations :=
  [("en", {[ "welcome" := "Hi" ]}); ("fr", {[ "welcome" := "Salut" ]})].

Definition source_b : Translations :=
  [("en", {[ "bye" := "Bye"; "welcome" := "Hello" ]}); ("es", {[ "bye" := "Adios" ]})].

Definition sample_manager : I18nManager unit string :=
  extend "b" (ext_loader (λ _ _, Returns (Fulfilled source_b)))
    (extend "a" (ext_loader (λ _ _, Returns (Fulfilled source_a)))
       (new sample_fs "icu-formatter" sample_config)).


(** The second source rejects. *)
Definition rejecting_manager : I18nManager unit string :=
  extend "b" (ext_loader (λ _ _, Returns (Rejected 3 "disk unreadable"))) sample_manager.

(** An explicit list of supported locales. *)
Definition explicit_config : I18nConfig.t := {|
  I18nConfig.defaultLocale := "en";
  I18nConfig.supportedLocales := Some ["en"; "pt"];
  I18nConfig.fallbackLocales := None;
  I18nConfig.loaders :=
    [("fs", Some {| I18nConfig.enabled := false; I18nConfig.options := [] |});
     ("later", None)];
  I18nConfig.translationsFormat := "icu";
  I18nConfig.fallback := None;
|}.

Definition explicit_manager : I18nManager unit string :=
  new sample_fs "icu-formatter" explicit_config.

(** The default locale has a fallback of its own. *)
Definition duplicate_config : I18nConfig.t := {|
  I18nConfig.defaultLocale := "en";
  I18nConfig.supportedLocales := None;
  I18nConfig.fallbackLocales := Some [("es", "en"); ("en", "es")];
  I18nConfig.loaders := [];
  I18nConfig.translationsFormat := "icu";
  I18nConfig.fallback := None;
|}.

Definition duplicate_manager : I18nManager unit string :=
  new sample_fs "icu-formatter" duplicate_config.



(** The loader [db] is enabled and nothing is registered under that name. *)
Definition db_config : I18nConfig.t := {|
  I18nConfig.defaultLocale := "en";
  I18nConfig.supportedLocales := None;
  I18nConfig.fallbackLocales := None;
  I18nConfig.loaders :=
    [("a", Some {| I18nConfig.enabled := true; I18nConfig.options := [] |});
     ("db", Some {| I18nConfig.enabled := true; I18nConfig.options := [] |})];
  I18nConfig.translationsFormat := "icu";
  I18nConfig.fallback := None;
|}.

Definition db_manager : I18nManager unit string :=
  extend "a" (ext_loader (λ _ _, Returns (Fulfilled source_a)))
    (new sample_fs "icu-formatter" db_config).


(** A format nobody registered. *)
Definition xliff_config : I18nConfig.t := {|
  I18nConfig.defaultLocale := "en";
  I18nConfig.supportedLocales := None;
  I18nConfig.fallbackLocales := None;
  I18nConfig.loaders := [];
  I18nConfig.translationsFormat := "xliff";
  I18nConfig.fallback := None;
|}.

Definition xliff_manager : I18nManager unit string :=
  new sample_fs "icu-formatter" xliff_config.

(** ** More of what a reload and a run keep *)

(** How many source results have a message for the key of the locale. *)
Definition sources_defining (stack : list Translations) (locale key : string) : nat :=
  length (filter (λ t, is_Some (source_value t locale key)) stack).

(** What holds of the store and of the inferred list between the calls:
    nothing is there before a load went through; afterwards the list starts
    with the default locale and has every locale of the store. *)
Definition store_consistent {World Formatter}
    (m : I18nManager World Formatter) : Prop :=
  if hasCachedTranslations m
  then head (inferredLocales m) = Some (defaultLocale m)
       ∧ ∀ locale, is_Some (translations m !! locale) → locale ∈ inferredLocales m
  else translations m = ∅ ∧ inferredLocales m = [].

(** A stand-in for the negotiator: the available locale that is the header. *)
Definition exact_negotiator (header : string) (available : list string)
  : option string :=
  List.find (String.eqb header) available.

(** The built-in loader alone, enabled. *)
Definition fs_config : I18nConfig.t := {|
  I18nConfig.defaultLocale := "en";
  I18nConfig.supportedLocales := None;
  I18nConfig.fallbackLocales := None;
  I18nConfig.loaders :=
    [("fs", Some {| I18nConfig.enabled := true; I18nConfig.options := [("location", "lang")] |})];
  I18nConfig.translationsFormat := "icu";
  I18nConfig.fallback := Some (λ identifier _, Some identifier);
|}.

Definition fs_of_source_a (_ : option I18nConfig.LoaderConfig) (_ : unit) : LoadOutcome :=
  Returns (Fulfilled source_a).

Definition fs_manager : I18nManager unit string :=
  new fs_of_source_a "icu-formatter" fs_config.

(** A source that shares no key with [source_a]. *)
Definition source_c : Translations :=
  [("en", {[ "bye" := "Bye" ]}); ("pt", {[ "welcome" := "Oi" ]})].

(** * Properties *)

(** ** Plain objects, promises *)

Lemma js_get_is_Some {V} (o : JsObject V) (k : string) :
  is_Some (js_get o k) ↔ k ∈ Object_keys o.
Proof.
  unfold Object_keys. induction o as [|[k' v] o IH]; simpl.
  - split; [intros [? ?]; discriminate | intros H; inversion H].
  - destruct (decide (k' = k)) as [->|Hne].
    + split; [intros _; left | eauto].
    + rewrite IH. split; [by right |].
      intros H. apply elem_of_cons in H as [->|H]; [done | exact H].
Qed.

Lemma js_get_None {V} (o : JsObject V) (k : string) :
  js_get o k = None ↔ k ∉ Object_keys o.
Proof. rewrite <- js_get_is_Some, eq_None_not_Some. done. Qed.

Lemma Object_assign_lookup (target : Messages) (source : option Messages) (key : string) :
  Object_assign target source !! key =
  match source ≫= (.!! key) with
  | Some v => Some v
  | None => target !! key
  end.
Proof.
  destruct source as [s|]; simpl; [|done].
  destruct (s !! key) as [v|] eqn:Hs.
  - by apply lookup_union_Some_l.
  - by apply lookup_union_r.
Qed.

Lemma Object_assign_twice (target : Messages) (source : option Messages) :
  Object_assign (Object_assign target source) source = Object_assign target source.
Proof.
  apply map_eq. intros key. rewrite !Object_assign_lookup.
  by destruct (source ≫= (.!! key)).
Qed.

Lemma Promise_all_Fulfilled {A} (ps : list (Promise A)) (l : list A) :
  Promise_all ps = Fulfilled l ↔ ps = Fulfilled <$> l.
Proof.
  revert l. induction ps as [|p ps IH]; intros l; simpl.
  - split.
    + intros [= <-]. done.
    + destruct l; [done | discriminate].
  - destruct p as [a|t e]; destruct (Promise_all ps) as [l'|t' e'] eqn:Hall.
    + split.
      * intros [= <-]. simpl. f_equal. by apply IH.
      * destruct l as [|a' l'']; [discriminate |]. intros [= -> Hps].
        apply IH in Hps. by injection Hps as ->.
    + split; [discriminate |].
      destruct l as [|a' l'']; [discriminate |]. intros [= -> Hps].
      apply IH in Hps. discriminate.
    + split; [discriminate | destruct l; discriminate].
    + split; [case_decide; discriminate | destruct l; discriminate].
Qed.

Lemma Promise_all_Rejected {A} (ps : list (Promise A)) (t : nat) (e : string) :
  Promise_all ps = Rejected t e → Rejected t e ∈ ps.
Proof.
  induction ps as [|p ps IH]; simpl; [discriminate |].
  destruct p as [a|t0 e0]; destruct (Promise_all ps) as [l'|t' e'].
  - discriminate.
  - intros [= -> ->]. right. by apply IH.
  - intros [= -> ->]. left.
  - case_decide; intros [= -> ->]; [left | right; by apply IH].
Qed.

Lemma Promise_all_rejects {A} (ps : list (Promise A)) (t : nat) (e : string) :
  Rejected t e ∈ ps → ∃ t' e', Promise_all ps = Rejected t' e'.
Proof.
  induction ps as [|p ps IH]; intros Hin; [inversion Hin |].
  simpl. apply elem_of_cons in Hin as [<-|Hin].
  - destruct (Promise_all ps); [eauto | case_decide; eauto].
  - destruct (IH Hin) as (t' & e' & ->).
    destruct p; [eauto | case_decide; eauto].
Qed.

(** ** The inferred list *)

Lemma first_occurrences_ext (seen seen' l : list string) :
  (∀ x, x ∈ seen ↔ x ∈ seen') →
  first_occurrences seen l = first_occurrences seen' l.
Proof.
  revert seen seen'. induction l as [|x l IH]; intros seen seen' Heq; simpl; [done |].
  rewrite (bool_decide_ext (x ∈ seen) (x ∈ seen')) by apply Heq.
  case_bool_decide.
  - by apply IH.
  - f_equal. apply IH. intros y. rewrite !elem_of_cons, Heq. done.
Qed.

Lemma fold_infer_locale (l acc : list string) :
  fold_left infer_locale l acc = acc ++ first_occurrences acc l.
Proof.
  revert acc. induction l as [|x l IH]; intros acc; simpl.
  - by rewrite app_nil_r.
  - unfold infer_locale at 2. case_bool_decide.
    + apply IH.
    + rewrite IH, <- app_assoc. simpl. do 2 f_equal.
      apply first_occurrences_ext. intros y.
      rewrite elem_of_app, list_elem_of_singleton, elem_of_cons. tauto.
Qed.

Lemma first_occurrences_elem_of (seen l : list string) (x : string) :
  x ∈ first_occurrences seen l ↔ x ∈ l ∧ x ∉ seen.
Proof.
  revert seen. induction l as [|y l IH]; intros seen; simpl.
  - split; [intros H; inversion H | intros [H _]; inversion H].
  - case_bool_decide as Hy.
    + rewrite IH, elem_of_cons. split; [tauto |].
      intros [[->|?] ?]; tauto.
    + rewrite !elem_of_cons, IH, elem_of_cons.
      split.
      * intros [->|[? ?]]; [tauto |]. tauto.
      * intros [[->|?] ?]; [tauto |].
        destruct (decide (x = y)); [tauto |]. right. tauto.
Qed.

Lemma first_occurrences_NoDup (seen l : list string) :
  NoDup (first_occurrences seen l).
Proof.
  revert seen. induction l as [|y l IH]; intros seen; simpl; [constructor |].
  case_bool_decide; [apply IH |].
  constructor; [| apply IH].
  rewrite first_occurrences_elem_of, elem_of_cons. tauto.
Qed.

(** ** The merge *)

Lemma fold_merge_lang (t : Translations) (langs : list string)
    (st : list string * gmap string Messages) :
  fold_left (merge_lang t) langs st =
  (fold_left infer_locale langs st.1, fold_left (assign_lang t) langs st.2).
Proof.
  revert st. induction langs as [|lang langs IH]; intros [inferred store]; simpl; [done |].
  by rewrite IH.
Qed.

Lemma fold_merge_translations (stack : list Translations)
    (st : list string * gmap string Messages) :
  fold_left merge_translations stack st =
  (fold_left infer_locale (discovered_locales stack) st.1,
   fold_left (λ store t, fold_left (assign_lang t) (Object_keys t) store) stack st.2).
Proof.
  revert st. induction stack as [|t stack IH]; intros [inferred store]; simpl; [done |].
  unfold discovered_locales. simpl.
  rewrite IH. unfold merge_translations at 1 2. rewrite fold_merge_lang. simpl.
  by rewrite fold_left_app.
Qed.

(** After the languages [langs] of one result were assigned, the store holds
    for each of them the previous messages overwritten by the result's. *)
Lemma fold_assign_lang_lookup (t : Translations) (langs : list string)
    (store : gmap string Messages) (locale : string) :
  fold_left (assign_lang t) langs store !! locale =
  if decide (locale ∈ langs)
  then Some (Object_assign (default ∅ (store !! locale)) (js_get t locale))
  else store !! locale.
Proof.
  revert store. induction langs as [|lang langs IH]; intros store; cbn [fold_left].
  - case_decide as Hin; [inversion Hin | done].
  - rewrite IH. unfold assign_lang at 1 2.
    destruct (decide (lang = locale)) as [->|Hne].
    + rewrite lookup_insert_eq. cbn [from_option]. unfold id. rewrite Object_assign_twice.
      rewrite (decide_True (P := locale ∈ locale :: langs)) by left.
      by case_decide.
    + rewrite lookup_insert_ne by done.
      destruct (decide (locale ∈ langs)) as [Hin|Hnin].
      * rewrite decide_True; [done | by right].
      * rewrite decide_False; [done |].
        intros [->|?]%elem_of_cons; done.
Qed.

Lemma merged_messages_one (t : Translations) (store : gmap string Messages)
    (locale key : string) :
  default ∅ (fold_left (assign_lang t) (Object_keys t) store !! locale) !! key =
  match source_value t locale key with
  | Some v => Some v
  | None => default ∅ (store !! locale) !! key
  end.
Proof.
  rewrite fold_assign_lang_lookup. unfold source_value. case_decide as Hin.
  - simpl. apply Object_assign_lookup.
  - apply js_get_None in Hin. by rewrite Hin.
Qed.

Lemma merged_messages (stack : list Translations) (store : gmap string Messages)
    (locale key : string) :
  default ∅ (fold_left (λ store t, fold_left (assign_lang t) (Object_keys t) store)
               stack store !! locale) !! key =
  match last_source_value stack locale key with
  | Some v => Some v
  | None => default ∅ (store !! locale) !! key
  end.
Proof.
  revert store. induction stack as [|t stack IH]; intros store; simpl; [done |].
  rewrite IH. destruct (last_source_value stack locale key); [done |].
  apply merged_messages_one.
Qed.

Lemma merged_locales (stack : list Translations) (store : gmap string Messages)
    (locale : string) :
  is_Some (fold_left (λ store t, fold_left (assign_lang t) (Object_keys t) store)
             stack store !! locale)
  ↔ locale ∈ discovered_locales stack ∨ is_Some (store !! locale).
Proof.
  revert store. induction stack as [|t stack IH]; intros store; simpl.
  - split; [by right | intros [H|H]; [inversion H | done]].
  - rewrite IH, fold_assign_lang_lookup. unfold discovered_locales. simpl.
    rewrite elem_of_app. fold (discovered_locales stack).
    case_decide; [| tauto].
    split; [tauto | intros _; right; eauto].
Qed.

(** ** Invoking the loaders *)

Section Loading.

Context {World Formatter : Type}.
Implicit Types (m : I18nManager World Formatter) (w : World).
Implicit Types (names : list string) (stack : list Translations).

Lemma invoke_loaders_Ok m w names ps :
  (invoke_loaders m w names).1 = Ok ps →
  Forall2 (source_returns m w) names ps
  ∧ (invoke_loaders m w names).2 = LoaderInvoked <$> names.
Proof.
  revert ps. induction names as [|name names IH]; intros ps; simpl.
  - intros [= <-]. split; [constructor | done].
  - destruct (loaders m !! name) as [loaderFactory|] eqn:Hreg; [| discriminate].
    destruct (loaderFactory (config m) w) as [reason|p] eqn:Hcall; [discriminate |].
    destruct (invoke_loaders m w names) as [[ps'|e] evs]; simpl; [| discriminate].
    intros [= <-]. destruct (IH ps' eq_refl) as [Hall Hevs]. simpl in Hevs.
    split; [| by rewrite Hevs].
    constructor; [| done]. by exists loaderFactory.
Qed.

Lemma invoke_loaders_Ok_intro m w names ps :
  Forall2 (source_returns m w) names ps →
  invoke_loaders m w names = (Ok ps, LoaderInvoked <$> names).
Proof.
  induction 1 as [|name p names ps (loaderFactory & Hreg & Hcall) _ IH]; simpl; [done |].
  by rewrite Hreg, Hcall, IH.
Qed.

(** [.map] throws at the first name that is not registered or whose call
    throws; the names before it were invoked, the names after it were not. *)
Lemma invoke_loaders_Err m w names e :
  (invoke_loaders m w names).1 = Err e →
  ∃ before name after ps,
    names = before ++ name :: after
    ∧ Forall2 (source_returns m w) before ps
    ∧ ((loaders m !! name = None ∧ e = InvalidLoader name
        ∧ (invoke_loaders m w names).2 = LoaderInvoked <$> before)
       ∨ (∃ loaderFactory reason,
            loaders m !! name = Some loaderFactory
            ∧ loaderFactory (config m) w = Throws reason
            ∧ e = LoaderFailure reason
            ∧ (invoke_loaders m w names).2 = LoaderInvoked <$> (before ++ [name]))).
Proof.
  induction names as [|name names IH]; simpl; [discriminate |].
  destruct (loaders m !! name) as [loaderFactory|] eqn:Hreg.
  - destruct (loaderFactory (config m) w) as [reason|p] eqn:Hcall.
    + intros [= <-]. exists [], name, names, []. split; [done |].
      split; [constructor |]. right. by exists loaderFactory, reason.
    + destruct (invoke_loaders m w names) as [[ps'|e'] evs]; simpl; [discriminate |].
      intros [= <-].
      destruct (IH eq_refl) as (before & bad & after & ps & -> & Hbefore & Hbad).
      exists (name :: before), bad, after, (p :: ps). split; [done |].
      split; [constructor; [by exists loaderFactory | done] |].
      simpl in Hbad.
      destruct Hbad as [(? & ? & ->)|(f & reason & ? & ? & ? & ->)]; [left | right]; eauto 10.
  - intros [= <-]. exists [], name, names, []. split; [done |].
    split; [constructor |]. by left.
Qed.

Lemma invoke_loaders_total m w names :
  (∃ ps, (invoke_loaders m w names).1 = Ok ps)
  ∨ (∃ e, (invoke_loaders m w names).1 = Err e).
Proof. destruct (invoke_loaders m w names).1; eauto. Qed.


(** [invoke_loaders] reads the registry at the listed names only. *)
Lemma invoke_loaders_registry m m' w names :
  config m' = config m →
  (∀ name, name ∈ names → loaders m' !! name = loaders m !! name) →
  invoke_loaders m' w names = invoke_loaders m w names.
Proof.
  intros Hcfg. induction names as [|name names IH]; intros Hreg; simpl; [done |].
  rewrite Hreg by left. rewrite Hcfg, IH; [done |].
  intros name' ?. apply Hreg. by right.
Qed.


Lemma reloadTranslations_Ok m w stack :
  Forall2 (source_result m w) (enabled_loaders (config m)) stack →
  reloadTranslations w m = (Ok (), reloaded m stack).
Proof.
  intros Hall. unfold reloadTranslations.
  rewrite (invoke_loaders_Ok_intro m w _ (Fulfilled <$> stack)).
  - rewrite (proj2 (Promise_all_Fulfilled _ stack) eq_refl).
    unfold initial_inferredLocales, defaultLocale. simpl.
    rewrite fold_merge_translations. done.
  - apply Forall2_fmap_r. eapply Forall2_impl; [| exact Hall]. done.
Qed.

Lemma reloadTranslations_Ok_inv m w :
  (reloadTranslations w m).1 = Ok () →
  ∃ stack, Forall2 (source_result m w) (enabled_loaders (config m)) stack
           ∧ reloadTranslations w m = (Ok (), reloaded m stack).
Proof.
  intros Hok.
  destruct (invoke_loaders_total m w (enabled_loaders (config m))) as [[ps Hps]|[e He]].
  - destruct (Promise_all ps) as [stack|t reason] eqn:Hall.
    + apply Promise_all_Fulfilled in Hall as ->.
      apply invoke_loaders_Ok in Hps as [Hps _].
      assert (Forall2 (source_result m w) (enabled_loaders (config m)) stack) as Hres.
      { rewrite Forall2_fmap_r in Hps. exact Hps. }
      exists stack. split; [exact Hres |]. by apply reloadTranslations_Ok.
    + unfold reloadTranslations in Hok.
      destruct (invoke_loaders m w (enabled_loaders (config m))) as [r evs].
      simpl in Hps. subst r. rewrite Hall in Hok. discriminate.
  - unfold reloadTranslations in Hok.
    destruct (invoke_loaders m w (enabled_loaders (config m))) as [r evs].
    simpl in He. subst r. discriminate.
Qed.

(** A reload that fails leaves everything but the journal as it was. *)
Lemma reloadTranslations_Err m w e :
  (reloadTranslations w m).1 = Err e →
  (reloadTranslations w m).2
  = record (invoke_loaders m w (enabled_loaders (config m))).2 m.
Proof.
  unfold reloadTranslations.
  destruct (invoke_loaders m w (enabled_loaders (config m))) as [[ps|e'] evs]; [| done].
  destruct (Promise_all ps) as [stack|t reason]; [| done].
  destruct (fold_left _ _ _). discriminate.
Qed.

End Loading.

(** ** Merge order *)




Section Reload.

Context {World Formatter : Type}.
Implicit Types (m : I18nManager World Formatter) (w : World).


(** The error a failed reload surfaces: the failure of an enabled source, or
    the name of an enabled loader that is not registered. *)
Lemma reload_error_origin m w e :
  (reloadTranslations w m).1 = Err e →
  (∃ name reason, name ∈ enabled_loaders (config m)
                  ∧ source_fails m w name reason ∧ e = LoaderFailure reason)
  ∨ (∃ name, name ∈ enabled_loaders (config m)
             ∧ loaders m !! name = None ∧ e = InvalidLoader name).
Proof.
  intros Herr. unfold reloadTranslations in Herr.
  destruct (invoke_loaders_total m w (enabled_loaders (config m))) as [[ps Hps]|[e' He]].
  - pose proof (invoke_loaders_Ok _ _ _ _ Hps) as [Hall _].
    destruct (invoke_loaders m w (enabled_loaders (config m))) as [r evs].
    simpl in Hps. subst r.
    destruct (Promise_all ps) as [stack|t reason] eqn:HPall.
    { destruct (fold_left _ _ _). discriminate. }
    simpl in Herr. injection Herr as <-.
    apply Promise_all_Rejected, list_elem_of_lookup in HPall as [i Hi].
    destruct (Forall2_lookup_r _ _ _ _ _ Hall Hi) as (name & Hname & f & Hreg & Hcall).
    left. exists name, reason. split; [by eapply list_elem_of_lookup_2 |].
    split; [| done]. exists f. split; [done |]. right. by exists t.
  - pose proof (invoke_loaders_Err _ _ _ _ He)
      as (before & name & after & ps & Hnames & _ & Hbad).
    destruct (invoke_loaders m w (enabled_loaders (config m))) as [r evs].
    simpl in He. subst r. simpl in Herr. injection Herr as <-.
    assert (name ∈ enabled_loaders (config m)) as Hin.
    { rewrite Hnames, elem_of_app, elem_of_cons. tauto. }
    destruct Hbad as [(Hreg & -> & _)|(f & reason & Hreg & Hcall & -> & _)].
    + right. by exists name.
    + left. exists name, reason. split; [done |]. split; [| done].
      exists f. split; [done |]. by left.
Qed.

(** C2.  When the load of some enabled source fails (its call throws, or the
    promise it returns rejects), [reloadTranslations] fails with an error
    (that of a failing source, or the one for an enabled loader that is not
    registered), and the store, the cached flag and the inferred list are
    what they were before the call. *)
Theorem failed_reload_leaves_state m w name reason :
  name ∈ enabled_loaders (config m) →
  source_fails m w name reason →
  ∃ e,
    (reloadTranslations w m).1 = Err e
    ∧ getTranslations (reloadTranslations w m).2 = getTranslations m
    ∧ hasCachedTranslations (reloadTranslations w m).2 = hasCachedTranslations m
    ∧ inferredLocales (reloadTranslations w m).2 = inferredLocales m
    ∧ ((∃ name' reason', name' ∈ enabled_loaders (config m)
                         ∧ source_fails m w name' reason' ∧ e = LoaderFailure reason')
       ∨ (∃ name', name' ∈ enabled_loaders (config m)
                   ∧ loaders m !! name' = None ∧ e = InvalidLoader name')).
Proof.
  intros Hin (f & Hreg & Hfail).
  destruct (reloadTranslations w m).1 as [[]|e] eqn:Hres.
  - exfalso.
    destruct (reloadTranslations_Ok_inv m w Hres) as (stack & Hstack & _).
    apply list_elem_of_lookup in Hin as [i Hi].
    destruct (Forall2_lookup_l _ _ _ _ _ Hstack Hi) as (t & _ & f' & Hreg' & Hcall).
    rewrite Hreg in Hreg'. injection Hreg' as <-.
    destruct Hfail as [Hthrow|[t' Hrej]]; congruence.
  - exists e. split; [done |].
    rewrite (reloadTranslations_Err m w e Hres).
    repeat split; [by apply reload_error_origin].
Qed.

(** X14.  The inferred list as the code computes it.  After a reload that
    went through, the inferred list is [defaultLocale], then the keys of
    [fallbackLocales] in their order, then the locales of the source results in encounter order, each
    appended at its first occurrence and only when the list does not have it
    yet.  It begins with [defaultLocale], and nothing is appended twice.  The
    keys of [fallbackLocales] are not compared with [defaultLocale]: the list
    is free of duplicates when [defaultLocale] is not one of those keys. *)
Theorem inferred_locales_after_reload m w m' :
  reloadTranslations w m = (Ok (), m') →
  ∃ stack,
    Forall2 (source_result m w) (enabled_loaders (config m)) stack
    ∧ inferredLocales m' =
        (defaultLocale m :: fallback_keys (config m))
        ++ first_occurrences (defaultLocale m :: fallback_keys (config m))
             (discovered_locales stack)
    ∧ head (inferredLocales m') = Some (defaultLocale m)
    ∧ NoDup (first_occurrences (defaultLocale m :: fallback_keys (config m))
               (discovered_locales stack))
    ∧ (∀ locale, locale ∈ discovered_locales stack → locale ∈ inferredLocales m')
    ∧ (defaultLocale m ∉ fallback_keys (config m) →
       NoDup (fallback_keys (config m)) →
       NoDup (inferredLocales m')).
Proof.
  intros Hreload.
  destruct (reloadTranslations_Ok_inv m w) as (stack & Hstack & Heq).
  { by rewrite Hreload. }
  rewrite Hreload in Heq. injection Heq as ->.
  exists stack. simpl. rewrite fold_infer_locale. unfold initial_inferredLocales.
  repeat split; try done.
  - apply first_occurrences_NoDup.
  - intros locale Hin. rewrite elem_of_app, first_occurrences_elem_of.
    destruct (decide (locale ∈ defaultLocale m :: fallback_keys (config m))); tauto.
  - intros Hdefault Hkeys. apply list.NoDup_app. repeat split.
    + by constructor.
    + intros locale Hin [_ Hnin]%first_occurrences_elem_of. done.
    + apply first_occurrences_NoDup.
Qed.

End Reload.

(** ** What the calls preserve *)

Section Lifecycle.

Context {World Formatter : Type}.
Implicit Types (m : I18nManager World Formatter) (w : World).
Implicit Types (c : Call World Formatter) (cs : list (Call World Formatter)).

Lemma reloadTranslations_cases m w :
  (∃ stack, Forall2 (source_result m w) (enabled_loaders (config m)) stack
            ∧ reloadTranslations w m = (Ok (), reloaded m stack))
  ∨ (∃ e, reloadTranslations w m
          = (Err e, record (invoke_loaders m w (enabled_loaders (config m))).2 m)).
Proof.
  destruct (reloadTranslations w m).1 as [[]|e] eqn:Hres.
  - left. by apply reloadTranslations_Ok_inv.
  - right. exists e. rewrite <- (reloadTranslations_Err m w e Hres), <- Hres.
    apply surjective_pairing.
Qed.



Lemma config_perform c m : config (perform c m).2 = config m.
Proof.
  destruct c as [name [callback|callback]| |w|w]; simpl; try done.
  - unfold getFormatter. destruct (formatter m); [done |].
    by destruct (formatters m !! _).
  - unfold loadTranslations. destruct (hasCachedTranslations m); [done |].
    destruct (reloadTranslations_cases m w) as [(stack & _ & ->)|(e & ->)]; done.
  - destruct (reloadTranslations_cases m w) as [(stack & _ & ->)|(e & ->)]; done.
Qed.

Lemma config_run cs m : config (run cs m) = config m.
Proof.
  revert m. induction cs as [|c cs IH]; intros m; [done |].
  unfold run in *. simpl. by rewrite IH, config_perform.
Qed.

(** A call sets the cached flag exactly when it is a load that went through;
    no call clears it. *)
Lemma hasCachedTranslations_perform c m :
  hasCachedTranslations (perform c m).2
  = hasCachedTranslations m || (is_load c && (perform c m).1).
Proof.
  destruct c as [name [callback|callback]| |w|w]; simpl.
  - by rewrite orb_false_r.
  - by rewrite orb_false_r.
  - rewrite orb_false_r. unfold getFormatter. destruct (formatter m); [done |].
    by destruct (formatters m !! _).
  - unfold loadTranslations. destruct (hasCachedTranslations m) eqn:Hflag; [done |].
    destruct (reloadTranslations_cases m w) as [(stack & _ & ->)|(e & ->)]; simpl; done.
  - destruct (reloadTranslations_cases m w) as [(stack & _ & ->)|(e & ->)]; simpl.
    + by rewrite orb_true_r.
    + by rewrite orb_false_r.
Qed.

Lemma hasCachedTranslations_run cs m :
  hasCachedTranslations (run cs m) = hasCachedTranslations m || loaded cs m.
Proof.
  revert m. induction cs as [|c cs IH]; intros m.
  - simpl. by rewrite orb_false_r.
  - unfold run in *. simpl. rewrite IH, hasCachedTranslations_perform.
    by rewrite orb_assoc.
Qed.





End Lifecycle.

(** ** Locales *)

Section Locales.

Context {World Formatter : Type}.
Implicit Types (m : I18nManager World Formatter) (w : World).
Implicit Types (cs : list (Call World Formatter)).

(** C4.  When the configuration has an explicit [supportedLocales] list,
    [supportedLocales()] returns that list: for the manager at hand, for
    every manager of the same configuration whatever its store and its
    inferred list, and after any sequence of calls.  When the configuration
    has none, [supportedLocales()] returns the inferred list. *)
Theorem supportedLocales_explicit_or_inferred m :
  (∀ explicit,
     I18nConfig.supportedLocales (config m) = Some explicit →
     supportedLocales m = explicit
     ∧ (∀ m', config m' = config m → supportedLocales m' = explicit)
     ∧ (∀ cs, supportedLocales (run cs m) = explicit))
  ∧ (I18nConfig.supportedLocales (config m) = None →
     supportedLocales m = inferredLocales m).
Proof.
  split.
  - intros explicit Hcfg.
    assert (∀ m', config m' = config m → supportedLocales m' = explicit) as Hall.
    { intros m' Hm'. unfold supportedLocales. by rewrite Hm', Hcfg. }
    split; [by apply Hall |]. split; [exact Hall |].
    intros cs. apply Hall, config_run.
  - intros Hcfg. unfold supportedLocales. by rewrite Hcfg.
Qed.


(** [getSupportedLocaleFor] is the negotiator's choice among
    [supportedLocales()], and [null] when the negotiator has none (or the
    empty string). *)
Lemma getSupportedLocaleFor_null
    (Negotiator_language : string → list string → option string)
    m (userLanguage : list string) :
  getSupportedLocaleFor Negotiator_language m (inr userLanguage) = None
  ↔ Negotiator_language (String.concat "," userLanguage) (supportedLocales m) = None
    ∨ Negotiator_language (String.concat "," userLanguage) (supportedLocales m) = Some "".
Proof.
  unfold getSupportedLocaleFor.
  destruct (Negotiator_language _ _) as [l|]; [| tauto].
  case_decide as Hl.
  - subst l. tauto.
  - split; [discriminate |]. intros [?|[= ?]]; [discriminate | done].
Qed.

End Locales.

(** ** Caching *)

Section Caching.

Context {World Formatter : Type}.
Variable FsLoader_load : option I18nConfig.LoaderConfig → World → LoadOutcome.
Variable IcuFormatter : Formatter.
Implicit Types (m : I18nManager World Formatter) (w : World).
Implicit Types (cs : list (Call World Formatter)).

(** C6.  The cached flag is false in a new manager; after any sequence of
    calls it is true exactly when some load of the sequence went through,
    and once true it stays true.  [loadTranslations] is [reloadTranslations]
    when the flag is false, and returns at once, changing nothing and
    invoking no loader, when it is true.  [reloadTranslations] does not look
    at the flag: its outcome and the loaders it invokes are the same for
    either value, and when it goes through the flag is true and every
    enabled loader was invoked. *)
Theorem cached_flag_lifecycle (cfg : I18nConfig.t) :
  hasCachedTranslations (new FsLoader_load IcuFormatter cfg) = false
  ∧ (∀ cs, hasCachedTranslations (run cs (new FsLoader_load IcuFormatter cfg))
           = loaded cs (new FsLoader_load IcuFormatter cfg))
  ∧ (∀ m cs, hasCachedTranslations m = true →
             hasCachedTranslations (run cs m) = true)
  ∧ (∀ m w, hasCachedTranslations m = false →
            loadTranslations w m = reloadTranslations w m)
  ∧ (∀ m w, hasCachedTranslations m = true → loadTranslations w m = (Ok (), m))
  ∧ (∀ m w b,
       (reloadTranslations w (with_hasCachedTranslations b m)).1
       = (reloadTranslations w m).1
       ∧ journal (reloadTranslations w (with_hasCachedTranslations b m)).2
         = journal (reloadTranslations w m).2)
  ∧ (∀ m w,
       (reloadTranslations w m).1 = Ok () →
       hasCachedTranslations (reloadTranslations w m).2 = true
       ∧ journal (reloadTranslations w m).2
         = journal m ++ (LoaderInvoked <$> enabled_loaders (config m))).
Proof.
  repeat split.
  - intros cs. by rewrite hasCachedTranslations_run.
  - intros m cs Hm. by rewrite hasCachedTranslations_run, Hm.
  - intros m w Hm. unfold loadTranslations. by rewrite Hm.
  - intros m w Hm. unfold loadTranslations. by rewrite Hm.
  - unfold reloadTranslations. simpl.
    rewrite (invoke_loaders_registry m (with_hasCachedTranslations b m)) by done.
    destruct (invoke_loaders m w (enabled_loaders (config m))) as [[ps|e] evs]; [| done].
    destruct (Promise_all ps) as [stack|t reason]; [| done].
    simpl. by destruct (fold_left _ _ _).
  - unfold reloadTranslations. simpl.
    rewrite (invoke_loaders_registry m (with_hasCachedTranslations b m)) by done.
    destruct (invoke_loaders m w (enabled_loaders (config m))) as [[ps|e] evs]; [| done].
    destruct (Promise_all ps) as [stack|t reason]; [| done].
    simpl. by destruct (fold_left _ _ _).
  - destruct (reloadTranslations_Ok_inv m w) as (stack & _ & ->); done.
  - destruct (reloadTranslations_Ok_inv m w) as (stack & _ & ->); done.
Qed.


End Caching.

(** ** Loaders that are disabled or not registered *)

Section Registry.

Context {World Formatter : Type}.
Implicit Types (m : I18nManager World Formatter) (w : World).






End Registry.

(** ** The properties on the sample managers *)


Lemma failed_reload_leaves_state_witness :
  "b" ∈ enabled_loaders (config rejecting_manager)
  ∧ source_fails rejecting_manager () "b" "disk unreadable"
  ∧ ∃ e,
      (reloadTranslations () rejecting_manager).1 = Err e
      ∧ getTranslations (reloadTranslations () rejecting_manager).2
        = getTranslations rejecting_manager
      ∧ hasCachedTranslations (reloadTranslations () rejecting_manager).2
        = hasCachedTranslations rejecting_manager
      ∧ inferredLocales (reloadTranslations () rejecting_manager).2
        = inferredLocales rejecting_manager
      ∧ ((∃ name' reason', name' ∈ enabled_loaders (config rejecting_manager)
                           ∧ source_fails rejecting_manager () name' reason'
                           ∧ e = LoaderFailure reason')
         ∨ (∃ name', name' ∈ enabled_loaders (config rejecting_manager)
                     ∧ loaders rejecting_manager !! name' = None
                     ∧ e = InvalidLoader name')).
Proof.
  assert ("b" ∈ enabled_loaders (config rejecting_manager)) as Hin.
  { vm_compute. right. left. }
  assert (source_fails rejecting_manager () "b" "disk unreadable") as Hfail.
  { eexists. split; [reflexivity |]. right. exists 3. reflexivity. }
  split; [exact Hin |]. split; [exact Hfail |].
  exact (failed_reload_leaves_state rejecting_manager () "b" "disk unreadable" Hin Hfail).
Defined.

(** C3.  The inferred list is meant to have no duplicates, also when
    [defaultLocale] is one of the keys of [fallbackLocales].  With
    [defaultLocale = "en"] and [fallbackLocales = { es: "en", en: "es" }] a
    reload goes through and leaves the list [["en"; "es"; "en"]]. *)
Lemma default_locale_listed_twice :
  (reloadTranslations () duplicate_manager).1 = Ok ()
  ∧ defaultLocale duplicate_manager ∈ fallback_keys (config duplicate_manager)
  ∧ inferredLocales (reloadTranslations () duplicate_manager).2 = ["en"; "es"; "en"]
  ∧ ¬ NoDup (inferredLocales (reloadTranslations () duplicate_manager).2).
Proof.
  split; [reflexivity |]. split; [vm_compute; right; left |].
  split; [reflexivity |].
  change (¬ NoDup ["en"; "es"; "en"]).
  intros Hnodup. apply list.NoDup_cons in Hnodup as [Hnin _].
  apply Hnin. right. left.
Qed.

Lemma inferred_locales_after_reload_witness :
  reloadTranslations () sample_manager
  = (Ok (), reloaded sample_manager [source_a; source_b])
  ∧ (defaultLocale sample_manager ∉ fallback_keys (config sample_manager))
  ∧ NoDup (fallback_keys (config sample_manager))
  ∧ inferredLocales (reloaded sample_manager [source_a; source_b])
    = ["en"; "fr-CA"; "fr"; "es"]
  ∧ NoDup (inferredLocales (reloaded sample_manager [source_a; source_b])).
Proof.
  assert (defaultLocale sample_manager ∉ fallback_keys (config sample_manager)) as Hdefault.
  { compute_done. }
  assert (NoDup (fallback_keys (config sample_manager))) as Hkeys.
  { compute_done. }
  split; [reflexivity |]. split; [exact Hdefault |]. split; [exact Hkeys |].
  split; [reflexivity |].
  destruct (inferred_locales_after_reload sample_manager ()
              (reloaded sample_manager [source_a; source_b]) eq_refl)
    as (stack & _ & _ & _ & _ & _ & Hnodup).
  exact (Hnodup Hdefault Hkeys).
Defined.

Lemma supportedLocales_explicit_or_inferred_witness :
  I18nConfig.supportedLocales (config explicit_manager) = Some ["en"; "pt"]
  ∧ supportedLocales explicit_manager = ["en"; "pt"]
  ∧ supportedLocales (run [call_reloadTranslations (); call_getFormatter] explicit_manager)
    = ["en"; "pt"]
  ∧ I18nConfig.supportedLocales (config sample_manager) = None
  ∧ supportedLocales sample_manager = inferredLocales sample_manager.
Proof.
  destruct (supportedLocales_explicit_or_inferred explicit_manager) as [Hexplicit _].
  destruct (Hexplicit ["en"; "pt"] eq_refl) as (Hnow & _ & Hlater).
  destruct (supportedLocales_explicit_or_inferred sample_manager) as [_ Hinferred].
  split; [reflexivity |]. split; [exact Hnow |]. split; [apply Hlater |].
  split; [reflexivity |]. apply Hinferred. reflexivity.
Defined.



Lemma cached_flag_lifecycle_witness :
  hasCachedTranslations sample_manager = false
  ∧ loadTranslations () sample_manager = reloadTranslations () sample_manager
  ∧ hasCachedTranslations (reloaded sample_manager [source_a; source_b]) = true
  ∧ loadTranslations () (reloaded sample_manager [source_a; source_b])
    = (Ok (), reloaded sample_manager [source_a; source_b])
  ∧ hasCachedTranslations
      (run [call_getFormatter; call_loadTranslations ()]
         (reloaded sample_manager [source_a; source_b])) = true
  ∧ (reloadTranslations () sample_manager).1 = Ok ()
  ∧ journal (reloadTranslations () sample_manager).2
    = journal sample_manager ++ [LoaderInvoked "a"; LoaderInvoked "b"].
Proof.
  destruct (cached_flag_lifecycle sample_fs "icu-formatter" sample_config)
    as (_ & _ & Hstays & Hfirst & Hagain & _ & Hreload).
  split; [reflexivity |].
  split; [apply Hfirst; reflexivity |].
  split; [reflexivity |].
  split; [apply Hagain; reflexivity |].
  split; [apply Hstays; reflexivity |].
  split; [reflexivity |].
  apply (Hreload sample_manager ()). reflexivity.
Defined.





(** * Further properties of the class *)

(** ** Registration *)

Section Registration.

Context {World Formatter : Type}.
Variable FsLoader_load : option I18nConfig.LoaderConfig → World → LoadOutcome.
Variable IcuFormatter : Formatter.
Implicit Types (m : I18nManager World Formatter) (w : World).




(** X2.  A formatter registered before the first [getFormatter()] under
    the configured format is the one that call instantiates, also in place
    of a built-in one and also after an earlier [getFormatter()] failed for
    want of it.  Registered after a formatter was cached, it is not used. *)
Theorem registered_formatter_is_used m
    (formatterFactory : ManagerFormatterFactory Formatter) :
  (formatter m = None →
   (getFormatter
      (extend (I18nConfig.translationsFormat (config m))
         (ext_formatter formatterFactory) m)).1
   = Ok (formatterFactory (config m)))
  ∧ (∀ e, (getFormatter m).1 = Err e →
          (getFormatter
             (extend (I18nConfig.translationsFormat (config m))
                (ext_formatter formatterFactory) (getFormatter m).2)).1
          = Ok (formatterFactory (config m)))
  ∧ (∀ f name, formatter m = Some f →
               (getFormatter (extend name (ext_formatter formatterFactory) m)).1 = Ok f).
Proof.
  assert (∀ m', formatter m' = None → config m' = config m →
    (getFormatter (extend (I18nConfig.translationsFormat (config m))
                     (ext_formatter formatterFactory) m')).1
    = Ok (formatterFactory (config m))) as Hfresh.
  { intros m' Hf Hcfg. unfold getFormatter. simpl. rewrite Hf, Hcfg.
    by rewrite lookup_insert_eq. }
  split; [intros Hf; by apply Hfresh |]. split.
  - intros e Herr. unfold getFormatter in Herr |- *.
    destruct (formatter m) as [f|] eqn:Hf; [discriminate |].
    cbv zeta in Herr.
    destruct (formatters m !! I18nConfig.translationsFormat (config m)) eqn:Hreg;
      [discriminate |].
    simpl. rewrite Hf. by rewrite lookup_insert_eq.
  - intros f name Hf. unfold getFormatter. simpl. by rewrite Hf.
Qed.



End Registration.

(** ** The store and the inferred list over the life of a manager *)

Section Store.

Context {World Formatter : Type}.
Variable FsLoader_load : option I18nConfig.LoaderConfig → World → LoadOutcome.
Variable IcuFormatter : Formatter.
Implicit Types (m : I18nManager World Formatter) (w : World).
Implicit Types (c : Call World Formatter) (cs : list (Call World Formatter)).

Lemma reloaded_inferredLocales m (stack : list Translations) (locale : string) :
  locale ∈ inferredLocales (reloaded m stack)
  ↔ locale = defaultLocale m
    ∨ locale ∈ fallback_keys (config m)
    ∨ locale ∈ discovered_locales stack.
Proof.
  simpl. rewrite fold_infer_locale. unfold initial_inferredLocales.
  rewrite elem_of_app, first_occurrences_elem_of, elem_of_cons.
  destruct (decide (locale = defaultLocale m)); [tauto |].
  destruct (decide (locale ∈ fallback_keys (config m))); tauto.
Qed.

Lemma reloaded_store_consistent m (stack : list Translations) :
  store_consistent (reloaded m stack).
Proof.
  unfold store_consistent. simpl hasCachedTranslations. cbv iota. split.
  - simpl. rewrite fold_infer_locale. done.
  - intros locale Hin. apply reloaded_inferredLocales.
    simpl in Hin. apply merged_locales in Hin as [?|Hempty]; [tauto |].
    rewrite lookup_empty in Hempty. by destruct Hempty.
Qed.

(** A call either leaves the store, the inferred list and the flag alone, or
    is a load that went through. *)
Lemma perform_store c m :
  (translations (perform c m).2 = translations m
   ∧ inferredLocales (perform c m).2 = inferredLocales m
   ∧ hasCachedTranslations (perform c m).2 = hasCachedTranslations m)
  ∨ (∃ stack, (perform c m).2 = reloaded m stack).
Proof.
  destruct c as [name [callback|callback]| |w|w]; simpl.
  - by left.
  - by left.
  - left. unfold getFormatter. destruct (formatter m); [done |].
    by destruct (formatters m !! _).
  - unfold loadTranslations. destruct (hasCachedTranslations m) eqn:Hflag.
    { left. simpl. by rewrite Hflag. }
    destruct (reloadTranslations_cases m w) as [(stack & _ & ->)|(e & ->)];
      [right; by exists stack | left; simpl; by rewrite Hflag].
  - destruct (reloadTranslations_cases m w) as [(stack & _ & ->)|(e & ->)];
      [right; by exists stack | by left].
Qed.

Lemma store_consistent_perform c m :
  store_consistent m → store_consistent (perform c m).2.
Proof.
  intros Hm. destruct (perform_store c m) as [(Hstore & Hlist & Hflag)|[stack ->]].
  - unfold store_consistent, defaultLocale in *.
    by rewrite Hstore, Hlist, Hflag, config_perform.
  - apply reloaded_store_consistent.
Qed.

Lemma store_consistent_run cs m :
  store_consistent m → store_consistent (run cs m).
Proof.
  revert m. induction cs as [|c cs IH]; intros m Hm; [done |].
  unfold run in *. simpl. by apply IH, store_consistent_perform.
Qed.


(** X5.  Once a load has gone through, whatever was called since, the
    inferred list starts with the default locale and has every locale the
    store has an entry for: without a configured list, every locale with
    translations is a supported locale, and so is the default locale. *)
Theorem loaded_locales_are_inferred (cfg : I18nConfig.t) cs :
  hasCachedTranslations (run cs (new FsLoader_load IcuFormatter cfg)) = true →
  head (inferredLocales (run cs (new FsLoader_load IcuFormatter cfg)))
  = Some (I18nConfig.defaultLocale cfg)
  ∧ (∀ locale,
       is_Some (getTranslations (run cs (new FsLoader_load IcuFormatter cfg)) !! locale) →
       locale ∈ inferredLocales (run cs (new FsLoader_load IcuFormatter cfg)))
  ∧ (I18nConfig.supportedLocales cfg = None →
     I18nConfig.defaultLocale cfg
       ∈ supportedLocales (run cs (new FsLoader_load IcuFormatter cfg))
     ∧ ∀ locale,
         is_Some (getTranslations (run cs (new FsLoader_load IcuFormatter cfg)) !! locale) →
         locale ∈ supportedLocales (run cs (new FsLoader_load IcuFormatter cfg))).
Proof.
  intros Hflag.
  pose proof (store_consistent_run cs (new FsLoader_load IcuFormatter cfg)) as Hinv.
  unfold store_consistent at 2 in Hinv. rewrite Hflag in Hinv.
  destruct Hinv as [Hhead Hstore]; [done |].
  unfold defaultLocale in Hhead. rewrite config_run in Hhead. simpl in Hhead.
  split; [exact Hhead |]. split; [exact Hstore |].
  intros Hnone. unfold supportedLocales. rewrite config_run. simpl. rewrite Hnone.
  split; [| exact Hstore].
  destruct (inferredLocales (run cs (new FsLoader_load IcuFormatter cfg))) as [|l ls];
    [discriminate |].
  injection Hhead as ->. left.
Qed.

(** X6.  No call changes the configuration: the default locale, the
    fallback locale of every locale and the fallback message of every
    identifier are, after any sequence of calls, what they were. *)
Theorem configuration_is_kept m cs :
  config (run cs m) = config m
  ∧ defaultLocale (run cs m) = defaultLocale m
  ∧ (∀ locale, getFallbackLocaleFor (run cs m) locale = getFallbackLocaleFor m locale)
  ∧ (∀ identifier locale,
       getFallbackMessage (run cs m) identifier locale
       = getFallbackMessage m identifier locale).
Proof.
  unfold defaultLocale, getFallbackLocaleFor, getFallbackMessage, defaultLocale.
  rewrite config_run. done.
Qed.


End Store.

(** ** How the calls compose *)

Section Composition.

Context {World Formatter : Type}.
Implicit Types (m : I18nManager World Formatter) (w : World).

(** A reload reads the configuration and the registered loaders, nothing
    else of the manager. *)
Lemma reload_reads_registry m1 m2 w :
  config m1 = config m2 →
  loaders m1 = loaders m2 →
  (reloadTranslations w m1).1 = (reloadTranslations w m2).1
  ∧ ((reloadTranslations w m1).1 = Ok () →
     translations (reloadTranslations w m1).2 = translations (reloadTranslations w m2).2
     ∧ inferredLocales (reloadTranslations w m1).2
       = inferredLocales (reloadTranslations w m2).2).
Proof.
  intros Hcfg Hreg. unfold reloadTranslations.
  rewrite (invoke_loaders_registry m2 m1 w), Hcfg by (done || by rewrite Hreg).
  destruct (invoke_loaders m2 w (enabled_loaders (config m2))) as [[ps|e] evs]; [| done].
  destruct (Promise_all ps) as [stack|t reason]; [| done].
  rewrite !fold_merge_translations. simpl.
  unfold initial_inferredLocales, defaultLocale. simpl. by rewrite Hcfg.
Qed.

(** What a reload keeps, whether it goes through or fails. *)
Lemma reload_keeps_plugins m w :
  config (reloadTranslations w m).2 = config m
  ∧ loaders (reloadTranslations w m).2 = loaders m
  ∧ formatters (reloadTranslations w m).2 = formatters m
  ∧ formatter (reloadTranslations w m).2 = formatter m.
Proof.
  destruct (reloadTranslations_cases m w) as [(stack & _ & ->)|(e & ->)]; done.
Qed.

(** What [getFormatter()] keeps, whether it returns or throws. *)
Lemma getFormatter_keeps_store m :
  config (getFormatter m).2 = config m
  ∧ loaders (getFormatter m).2 = loaders m
  ∧ formatters (getFormatter m).2 = formatters m
  ∧ translations (getFormatter m).2 = translations m
  ∧ inferredLocales (getFormatter m).2 = inferredLocales m
  ∧ hasCachedTranslations (getFormatter m).2 = hasCachedTranslations m.
Proof.
  unfold getFormatter. destruct (formatter m); [done |].
  by destruct (formatters m !! _).
Qed.

(** X8.  A reload replaces the store and the inferred list; it does not
    build on them.  What it returns and leaves in them depends on the
    configuration and the registered loaders only, not on the store, the
    list or the flag before the call.  So, the world being the same, a
    second reload right after one that went through goes through too and
    leaves the same store and the same list. *)
Theorem reload_replaces_store m1 m2 w :
  config m1 = config m2 →
  loaders m1 = loaders m2 →
  (reloadTranslations w m1).1 = (reloadTranslations w m2).1
  ∧ ((reloadTranslations w m1).1 = Ok () →
     getTranslations (reloadTranslations w m1).2
     = getTranslations (reloadTranslations w m2).2
     ∧ inferredLocales (reloadTranslations w m1).2
       = inferredLocales (reloadTranslations w m2).2)
  ∧ ((reloadTranslations w m1).1 = Ok () →
     (reloadTranslations w (reloadTranslations w m1).2).1 = Ok ()
     ∧ getTranslations (reloadTranslations w (reloadTranslations w m1).2).2
       = getTranslations (reloadTranslations w m1).2
     ∧ inferredLocales (reloadTranslations w (reloadTranslations w m1).2).2
       = inferredLocales (reloadTranslations w m1).2).
Proof.
  intros Hcfg Hreg.
  destruct (reload_reads_registry m1 m2 w Hcfg Hreg) as [Hres Hstate].
  split; [exact Hres |]. split; [exact Hstate |].
  intros Hok.
  destruct (reload_keeps_plugins m1 w) as (Hcfg' & Hreg' & _).
  destruct (reload_reads_registry (reloadTranslations w m1).2 m1 w Hcfg' Hreg')
    as [Hres' Hstate'].
  rewrite Hres', Hok in *. split; [done |]. by apply Hstate'.
Qed.


End Composition.

(** ** Order of the sources *)

Lemma sources_defining_cons (t : Translations) (stack : list Translations)
    (locale key : string) :
  sources_defining (t :: stack) locale key
  = (if decide (is_Some (source_value t locale key)) then 1 else 0)
    + sources_defining stack locale key.
Proof.
  unfold sources_defining. rewrite filter_cons. by case_decide.
Qed.

Lemma last_source_value_Permutation (stack stack' : list Translations)
    (locale key : string) :
  stack ≡ₚ stack' →
  sources_defining stack locale key ≤ 1 →
  last_source_value stack locale key = last_source_value stack' locale key.
Proof.
  induction 1 as [|t stack stack' Hperm IH|t1 t2 stack|stack1 stack2 stack3 H12 IH12 H23 IH23];
    intros Hone.
  - done.
  - rewrite sources_defining_cons in Hone. simpl. rewrite IH by lia. done.
  - rewrite !sources_defining_cons in Hone. simpl.
    destruct (last_source_value stack locale key); [done |].
    destruct (source_value t1 locale key) as [v1|] eqn:H1;
      destruct (source_value t2 locale key) as [v2|] eqn:H2; try done.
    repeat case_decide; first [lia | exfalso; eauto].
  - rewrite IH12 by done. apply IH23.
    unfold sources_defining in *. by rewrite <- H12.
Qed.

Section Order.

Context {World Formatter : Type}.
Implicit Types (m : I18nManager World Formatter) (w : World).

(** X10.  The order of the sources matters for the keys several of them
    have, and for those only: had the results been merged in another order,
    the message of a key of a locale that at most one of them has would be
    the same. *)
Theorem merge_order_matters_for_shared_keys_only m
    (stack stack' : list Translations) (locale key : string) :
  stack ≡ₚ stack' →
  sources_defining stack locale key ≤ 1 →
  getTranslationsFor (reloaded m stack) locale !! key
  = getTranslationsFor (reloaded m stack') locale !! key.
Proof.
  intros Hperm Hone. unfold getTranslationsFor. simpl.
  rewrite !merged_messages, lookup_empty. simpl. rewrite lookup_empty.
  by rewrite (last_source_value_Permutation stack stack' locale key Hperm Hone).
Qed.

(** X11.  [loadTranslations] after a [loadTranslations] that went through
    does nothing, whatever the world has become.  After one that failed on a
    manager without cached translations, the next [loadTranslations] loads
    again: it returns what [reloadTranslations] would and, when that goes
    through, leaves the store and the list [reloadTranslations] would. *)
Theorem loadTranslations_again m w1 w2 :
  ((loadTranslations w1 m).1 = Ok () →
   loadTranslations w2 (loadTranslations w1 m).2 = (Ok (), (loadTranslations w1 m).2))
  ∧ (∀ e,
       hasCachedTranslations m = false →
       (loadTranslations w1 m).1 = Err e →
       (loadTranslations w2 (loadTranslations w1 m).2).1 = (reloadTranslations w2 m).1
       ∧ ((reloadTranslations w2 m).1 = Ok () →
          getTranslations (loadTranslations w2 (loadTranslations w1 m).2).2
          = getTranslations (reloadTranslations w2 m).2
          ∧ inferredLocales (loadTranslations w2 (loadTranslations w1 m).2).2
            = inferredLocales (reloadTranslations w2 m).2)).
Proof.
  split.
  - intros Hok. unfold loadTranslations in *.
    destruct (hasCachedTranslations m) eqn:Hflag.
    + simpl. by rewrite Hflag.
    + destruct (reloadTranslations_Ok_inv m w1 Hok) as (stack & _ & ->). done.
  - intros e Hflag Herr. unfold loadTranslations in Herr |- *.
    rewrite Hflag in Herr |- *.
    rewrite (reloadTranslations_Err m w1 e Herr). simpl. rewrite Hflag.
    pose proof (reload_reads_registry
                  (record (invoke_loaders m w1 (enabled_loaders (config m))).2 m)
                  m w2 eq_refl eq_refl) as [Hres Hstate].
    split; [exact Hres |]. intros Hok. apply Hstate. by rewrite Hres.
Qed.

(** X12.  Resolving the formatter and loading the translations do not
    touch each other: [getFormatter()] returns the same before and after a
    reload, and a reload returns the same, and leaves the same store and
    list, before and after a [getFormatter()]. *)
Theorem formatter_and_translations_are_independent m w :
  (getFormatter (reloadTranslations w m).2).1 = (getFormatter m).1
  ∧ (reloadTranslations w (getFormatter m).2).1 = (reloadTranslations w m).1
  ∧ ((reloadTranslations w m).1 = Ok () →
     getTranslations (reloadTranslations w (getFormatter m).2).2
     = getTranslations (reloadTranslations w m).2
     ∧ inferredLocales (reloadTranslations w (getFormatter m).2).2
       = inferredLocales (reloadTranslations w m).2).
Proof.
  destruct (reload_keeps_plugins m w) as (Hcfg & _ & Hfs & Hf).
  destruct (getFormatter_keeps_store m) as (Hcfg' & Hreg' & _).
  split.
  - unfold getFormatter. rewrite Hf, Hcfg, Hfs.
    destruct (formatter m); [done |]. cbv zeta.
    by destruct (formatters m !! I18nConfig.translationsFormat (config m)).
  - destruct (reload_reads_registry (getFormatter m).2 m w Hcfg' Hreg') as [Hres Hstate].
    split; [exact Hres |]. intros Hok. apply Hstate. by rewrite Hres.
Qed.

(** X13.  For [getSupportedLocaleFor] a list of preferences is the header
    made of them joined by commas, and one preference is the list of it
    alone.  The result is never the empty string.  With a configured list of
    supported locales the result is the same after any sequence of calls. *)
Theorem getSupportedLocaleFor_header
    (Negotiator_language : string → list string → option string) m :
  (∀ userLanguage : list string,
     getSupportedLocaleFor Negotiator_language m (inr userLanguage)
     = getSupportedLocaleFor Negotiator_language m (inl (String.concat "," userLanguage)))
  ∧ (∀ userLanguage : string,
       getSupportedLocaleFor Negotiator_language m (inr [userLanguage])
       = getSupportedLocaleFor Negotiator_language m (inl userLanguage))
  ∧ (∀ userLanguage, getSupportedLocaleFor Negotiator_language m userLanguage ≠ Some "")
  ∧ (∀ explicit userLanguage (cs : list (Call World Formatter)),
       I18nConfig.supportedLocales (config m) = Some explicit →
       getSupportedLocaleFor Negotiator_language (run cs m) userLanguage
       = getSupportedLocaleFor Negotiator_language m userLanguage).
Proof.
  split; [done |]. split; [done |]. split.
  - intros userLanguage. unfold getSupportedLocaleFor.
    destruct (Negotiator_language _ _) as [l|]; [| done].
    case_decide; congruence.
  - intros explicit userLanguage cs Hcfg. unfold getSupportedLocaleFor, supportedLocales.
    by rewrite config_run, Hcfg.
Qed.

End Order.

(** ** Nothing is cancelled *)

Section Invocation.

Context {World Formatter : Type}.
Implicit Types (m : I18nManager World Formatter) (w : World).

(** X15.  When every enabled loader is registered and none throws when
    called, a reload calls each of them once, in the order of the
    configuration, whether the promises fulfil or some reject: a source that
    rejects fails the reload, it does not keep the others from being
    called. *)
Theorem every_enabled_loader_is_invoked m w :
  (∀ name, name ∈ enabled_loaders (config m) → ∃ p, source_returns m w name p) →
  journal (reloadTranslations w m).2
  = journal m ++ (LoaderInvoked <$> enabled_loaders (config m)).
Proof.
  intros Hall.
  assert (∃ ps, Forall2 (source_returns m w) (enabled_loaders (config m)) ps)
    as [ps Hps].
  { induction (enabled_loaders (config m)) as [|name names IH].
    - exists []. constructor.
    - destruct (Hall name) as [p Hp]; [left |].
      destruct IH as [ps Hps]; [intros n ?; apply Hall; by right |].
      exists (p :: ps). by constructor. }
  unfold reloadTranslations. rewrite (invoke_loaders_Ok_intro m w _ ps Hps).
  destruct (Promise_all ps) as [stack|t reason]; [| done].
  by destruct (fold_left _ _ _).
Qed.

End Invocation.

(** ** The further properties on the sample managers *)


Lemma registered_formatter_is_used_witness :
  formatter xliff_manager = None
  ∧ (getFormatter xliff_manager).1 = Err (InvalidFormatter "xliff")
  ∧ (getFormatter (extend "xliff" (ext_formatter (λ _, "xliff-formatter")) xliff_manager)).1
    = Ok "xliff-formatter"
  ∧ (getFormatter
       (extend "xliff" (ext_formatter (λ _, "xliff-formatter"))
          (getFormatter xliff_manager).2)).1
    = Ok "xliff-formatter"
  ∧ (getFormatter
       (extend "icu" (ext_formatter (λ _, "late")) (getFormatter sample_manager).2)).1
    = Ok "icu-formatter".
Proof.
  destruct (registered_formatter_is_used xliff_manager (λ _, "xliff-formatter"))
    as (Hfresh & Hretry & _).
  destruct (registered_formatter_is_used (getFormatter sample_manager).2 (λ _, "late"))
    as (_ & _ & Hlate).
  split; [reflexivity |]. split; [reflexivity |].
  split; [apply Hfresh; reflexivity |].
  split; [apply (Hretry (InvalidFormatter "xliff")); reflexivity |].
  apply Hlate. reflexivity.
Defined.



Lemma loaded_locales_are_inferred_witness :
  hasCachedTranslations
    (run [call_loadTranslations (); call_getFormatter] fs_manager) = true
  ∧ I18nConfig.supportedLocales fs_config = None
  ∧ "en" ∈ supportedLocales (run [call_loadTranslations (); call_getFormatter] fs_manager)
  ∧ "fr" ∈ supportedLocales (run [call_loadTranslations (); call_getFormatter] fs_manager).
Proof.
  destruct (loaded_locales_are_inferred fs_of_source_a "icu-formatter" fs_config
              [call_loadTranslations (); call_getFormatter] eq_refl)
    as (_ & _ & Hsupported).
  destruct (Hsupported eq_refl) as [Hdefault Hloaded].
  split; [reflexivity |]. split; [reflexivity |]. split; [exact Hdefault |].
  apply Hloaded. vm_compute. eexists. reflexivity.
Defined.

Lemma reload_replaces_store_witness :
  config sample_manager = config (reloaded sample_manager [source_c])
  ∧ loaders sample_manager = loaders (reloaded sample_manager [source_c])
  ∧ (reloadTranslations () sample_manager).1 = Ok ()
  ∧ getTranslations (reloadTranslations () sample_manager).2
    = getTranslations (reloadTranslations () (reloaded sample_manager [source_c])).2
  ∧ getTranslations (reloadTranslations () (reloadTranslations () sample_manager).2).2
    = getTranslations (reloadTranslations () sample_manager).2.
Proof.
  destruct (reload_replaces_store sample_manager (reloaded sample_manager [source_c]) ()
              eq_refl eq_refl)
    as (_ & Hsame & Htwice).
  destruct (Hsame eq_refl) as [Hstore _].
  destruct (Htwice eq_refl) as (_ & Hstore' & _).
  split; [reflexivity |]. split; [reflexivity |]. split; [reflexivity |].
  split; [exact Hstore | exact Hstore'].
Defined.


Lemma merge_order_matters_for_shared_keys_only_witness :
  [source_a; source_c] ≡ₚ [source_c; source_a]
  ∧ sources_defining [source_a; source_c] "en" "welcome" ≤ 1
  ∧ getTranslationsFor (reloaded sample_manager [source_a; source_c]) "en" !! "welcome"
    = getTranslationsFor (reloaded sample_manager [source_c; source_a]) "en" !! "welcome".
Proof.
  assert ([source_a; source_c] ≡ₚ [source_c; source_a]) as Hperm by apply perm_swap.
  assert (sources_defining [source_a; source_c] "en" "welcome" ≤ 1) as Hone.
  { vm_compute. lia. }
  split; [exact Hperm |]. split; [exact Hone |].
  exact (merge_order_matters_for_shared_keys_only sample_manager
           [source_a; source_c] [source_c; source_a] "en" "welcome" Hperm Hone).
Defined.

Lemma loadTranslations_again_witness :
  (loadTranslations () sample_manager).1 = Ok ()
  ∧ loadTranslations () (loadTranslations () sample_manager).2
    = (Ok (), (loadTranslations () sample_manager).2)
  ∧ hasCachedTranslations db_manager = false
  ∧ (loadTranslations () db_manager).1 = Err (InvalidLoader "db")
  ∧ (loadTranslations () (loadTranslations () db_manager).2).1
    = (reloadTranslations () db_manager).1.
Proof.
  destruct (loadTranslations_again sample_manager () ()) as [Hcached _].
  destruct (loadTranslations_again db_manager () ()) as [_ Hretry].
  destruct (Hretry (InvalidLoader "db") eq_refl eq_refl) as [Hsame _].
  split; [reflexivity |]. split; [apply Hcached; reflexivity |].
  split; [reflexivity |]. split; [reflexivity | exact Hsame].
Defined.

Lemma formatter_and_translations_are_independent_witness :
  (reloadTranslations () sample_manager).1 = Ok ()
  ∧ (getFormatter (reloadTranslations () sample_manager).2).1
    = (getFormatter sample_manager).1
  ∧ getTranslations (reloadTranslations () (getFormatter sample_manager).2).2
    = getTranslations (reloadTranslations () sample_manager).2.
Proof.
  destruct (formatter_and_translations_are_independent sample_manager ())
    as (Hformatter & _ & Hstore).
  destruct (Hstore eq_refl) as [Hsame _].
  split; [reflexivity |]. split; [exact Hformatter | exact Hsame].
Defined.

Lemma getSupportedLocaleFor_header_witness :
  I18nConfig.supportedLocales (config explicit_manager) = Some ["en"; "pt"]
  ∧ getSupportedLocaleFor exact_negotiator
      (run [call_reloadTranslations ()] explicit_manager) (inl "pt")
    = getSupportedLocaleFor exact_negotiator explicit_manager (inl "pt")
  ∧ getSupportedLocaleFor exact_negotiator explicit_manager (inr ["pt"]) = Some "pt".
Proof.
  destruct (getSupportedLocaleFor_header exact_negotiator explicit_manager)
    as (_ & Hone & _ & Hstable).
  split; [reflexivity |].
  split; [apply (Hstable ["en"; "pt"]); reflexivity |].
  rewrite Hone. reflexivity.
Defined.

Lemma every_enabled_loader_is_invoked_witness :
  (∀ name, name ∈ enabled_loaders (config rejecting_manager) →
           ∃ p, source_returns rejecting_manager () name p)
  ∧ (reloadTranslations () rejecting_manager).1 = Err (LoaderFailure "disk unreadable")
  ∧ journal (reloadTranslations () rejecting_manager).2
    = journal rejecting_manager
      ++ (LoaderInvoked <$> enabled_loaders (config rejecting_manager)).
Proof.
  assert (∀ name, name ∈ enabled_loaders (config rejecting_manager) →
                  ∃ p, source_returns rejecting_manager () name p) as Hall.
  { intros name Hname. vm_compute in Hname.
    apply elem_of_cons in Hname as [->|Hname].
    - eexists. eexists. split; reflexivity.
    - apply list_elem_of_singleton in Hname as ->.
      eexists. eexists. split; reflexivity. }
  split; [exact Hall |]. split; [reflexivity |].
  exact (every_enabled_loader_is_invoked rejecting_manager () Hall).
Defined.
